(** * Shallow embedding of the GitBook bundle generator of [src/pages/index.tsx]

    The pipeline of [handleFileUpload]: the raw text is resolved into an
    OpenAPI document (YAML.parse and SwaggerParser.validate, external),
    [collateTags] groups the endpoints by tag object, [makePagesForTagGroups]
    renders one page per group and [createZipBundle] fills a JSZip instance.

    JavaScript exceptions are modelled by the [res] error monad: a
    [TypeError] carries the property whose read on [undefined] failed.
    Strings are Rocq strings of 8-bit characters; JavaScript's UTF-16
    strings agree with them on the ASCII texts used below. *)

From Stdlib Require Import String Ascii List Bool Arith Lia ZArith.
Import ListNotations.
Open Scope string_scope.
Open Scope list_scope.

(** ** JavaScript values and exceptions *)

Inductive JsError :=
  (** [TypeError: Cannot read properties of undefined (reading 'p')] *)
  | TypeError (reading : string)
  (** an exception raised by the external parser or validator *)
  | ParseError (msg : string).

Inductive res (A : Type) :=
  | Ok (a : A)
  | Throw (e : JsError).
Arguments Ok {A} a.
Arguments Throw {A} e.

Definition bind {A B} (m : res A) (k : A -> res B) : res B :=
  match m with
  | Ok a => k a
  | Throw e => Throw e
  end.

Notation "'let*' x ':=' m 'in' k" := (bind m (fun x => k))
  (at level 200, x name, m at level 100, k at level 200).

(** [${v}] of a possibly undefined string. *)
Definition js_str (v : option string) : string :=
  match v with
  | Some s => s
  | None => "undefined"
  end.

Definition nl : string := String (ascii_of_nat 10%nat) EmptyString.
Definition dq : string := String (ascii_of_nat 34%nat) EmptyString.

(** [Array.prototype.join]. *)
Fixpoint join (sep : string) (l : list string) : string :=
  match l with
  | [] => ""
  | [x] => x
  | x :: xs => x ++ sep ++ join sep xs
  end.

(** JavaScript white space and line terminators of the ASCII range:
    tab, line feed, vertical tab, form feed, carriage return, space. *)
Definition is_js_space (c : ascii) : bool :=
  let n := nat_of_ascii c in
  ((9 <=? n)%nat && (n <=? 13)%nat) || (n =? 32)%nat.

Fixpoint drop_space (l : list ascii) : list ascii :=
  match l with
  | c :: cs => if is_js_space c then drop_space cs else l
  | [] => []
  end.

(** [String.prototype.trim]. *)
Definition trim (s : string) : string :=
  string_of_list_ascii
    (rev (drop_space (rev (drop_space (list_ascii_of_string s))))).

(** ** Data model (openapi-types) *)

Record ExternalDocumentationObject := {
  ed_description : option string;
  url : string
}.

Record TagObject := {
  name : string;
  description : option string;
  externalDocs : option ExternalDocumentationObject
}.

(** The operation fields the core reads: [tags] is optional in OpenAPI.
    The other fields of a Path Item ([parameters], [summary], ...) are
    values without a [tags] field; [Object.entries(operations)] yields them
    too, and they are entries whose [tags] is [None]. *)
Record OperationObject := {
  tags : option (list string);
  summary : option string
}.

(** [paths] as the ordered entries of the [paths] object and of each Path
    Item object; [doc_tags] is the optional top-level [tags] array. A
    document without a [paths] object, or with a [paths] entry whose value
    is [null], is not represented: [Object.entries] throws on it before
    any grouping. *)
Record Document := {
  info_title : string;
  paths : list (string * list (string * OperationObject));
  doc_tags : option (list TagObject)
}.

Record Endpoint := {
  operationObject : OperationObject;
  path : string;
  operation : string
}.

Record GitBookFile := {
  gb_path : string;
  contents : string
}.

(** ** Keys of [tagMap]: tag objects compared by reference

    A declared tag is the object at index [i] of [api.tags]; [find] returns
    the first match, so the index is its identity. [KUntagged] is the
    object [untaggedTag] created by this run, [KUndefined] the [undefined]
    returned by [find] when no declared tag has the name. *)
Inductive TKey :=
  | KUntagged
  | KTag (i : nat) (t : TagObject)
  | KUndefined.

Definition key_eqb (a b : TKey) : bool :=
  match a, b with
  | KUntagged, KUntagged => true
  | KTag i _, KTag j _ => Nat.eqb i j
  | KUndefined, KUndefined => true
  | _, _ => false
  end.

Definition untaggedTag : TagObject :=
  {| name := "__internal-untagged"; description := None; externalDocs := None |}.

(** [Map<TagObject, Endpoint[]>] as its entries in insertion order. *)
Definition TagMap := list (TKey * list Endpoint).

Fixpoint map_get (k : TKey) (m : TagMap) : option (list Endpoint) :=
  match m with
  | [] => None
  | (k', v) :: m' => if key_eqb k k' then Some v else map_get k m'
  end.

(** [Map.prototype.set]: an existing key keeps its position. *)
Fixpoint map_set (k : TKey) (v : list Endpoint) (m : TagMap) : TagMap :=
  match m with
  | [] => [(k, v)]
  | (k', v') :: m' =>
      if key_eqb k k' then (k', v) :: m' else (k', v') :: map_set k v m'
  end.

(** [tagMap.get(k) || []] *)
Definition get_or_nil (k : TKey) (m : TagMap) : list Endpoint :=
  match map_get k m with
  | Some l => l
  | None => []
  end.

(** ** collateTags *)

(** [api.tags.find(({ name }) => name === tagName)] on a present array. *)
Fixpoint find_tag_from (i : nat) (l : list TagObject) (tagName : string) : TKey :=
  match l with
  | [] => KUndefined
  | t :: l' =>
      if String.eqb (name t) tagName then KTag i t
      else find_tag_from (S i) l' tagName
  end.

Definition find_tag (api : Document) (tagName : string) : res TKey :=
  match doc_tags api with
  | Some l => Ok (find_tag_from 0 l tagName)
  | None => Throw (TypeError "find")
  end.

Definition flatten (ps : list (string * list (string * OperationObject)))
  : list Endpoint :=
  flat_map (fun '(p, ops) =>
    map (fun '(op, o) => {| operationObject := o; path := p; operation := op |})
      ops) ps.

(** [operationObject.tags.forEach((tagName) => ...)] *)
Fixpoint add_to_tags (api : Document) (e : Endpoint) (tagNames : list string)
    (m : TagMap) : res TagMap :=
  match tagNames with
  | [] => Ok m
  | tagName :: rest =>
      let* tag := find_tag api tagName in
      add_to_tags api e rest (map_set tag (get_or_nil tag m ++ [e]) m)
  end.

(** One iteration of [operations.forEach]. *)
Definition collate_endpoint (api : Document) (m : TagMap) (e : Endpoint)
  : res TagMap :=
  match tags (operationObject e) with
  | None => Throw (TypeError "length")
  | Some ts =>
      let m1 := if Nat.eqb (length ts) 0
                then map_set KUntagged (get_or_nil KUntagged m ++ [e]) m
                else m in
      add_to_tags api e ts m1
  end.

Fixpoint collate_loop (api : Document) (es : list Endpoint) (m : TagMap)
  : res TagMap :=
  match es with
  | [] => Ok m
  | e :: es' =>
      let* m' := collate_endpoint api m e in
      collate_loop api es' m'
  end.

Definition collateTags (api : Document) : res TagMap :=
  collate_loop api (flatten (paths api)) [].

(** ** Page rendering *)

Definition createGitBookOpenAPITag (endpoint : Endpoint) : string :=
  nl ++ "{% swagger src=" ++ dq ++ "./.gitbook/assets/openapi.yaml" ++ dq
     ++ " path=" ++ dq ++ path endpoint ++ dq
     ++ " method=" ++ dq ++ operation endpoint ++ dq ++ " %}" ++ nl
  ++ "[openapi.yaml](<./.gitbook/assets/openapi.yaml>)" ++ nl
  ++ "{% endswagger %}" ++ nl
  ++ "  ".

(** [${tag.externalDocs && `[${d.description}](${d.url})`}]: an absent
    [externalDocs] makes the whole expression [undefined]. *)
Definition external_docs_text (tag : TagObject) : string :=
  match externalDocs tag with
  | None => "undefined"
  | Some d => "[" ++ js_str (ed_description d) ++ "](" ++ url d ++ ")"
  end.

Definition createTagPage (tag : TagObject) (endpoints : list Endpoint)
  : GitBookFile :=
  {| gb_path := name tag ++ ".md";
     contents :=
       trim (nl ++ "# " ++ name tag ++ nl
             ++ nl
             ++ js_str (description tag) ++ nl
             ++ nl
             ++ external_docs_text tag ++ nl
             ++ nl
             ++ join (nl ++ nl) (map createGitBookOpenAPITag endpoints) ++ nl
             ++ "  ") |}.

(** The tag object a key stands for; [undefined.name] throws. *)
Definition key_tag (k : TKey) : res TagObject :=
  match k with
  | KUntagged => Ok untaggedTag
  | KTag _ t => Ok t
  | KUndefined => Throw (TypeError "name")
  end.

(** [Array.from(map.entries()).map(([tag, endpoint]) => createTagPage(...))] *)
Fixpoint makePagesForTagGroups (m : TagMap) : res (list GitBookFile) :=
  match m with
  | [] => Ok []
  | (k, endpoints) :: m' =>
      let* tag := key_tag k in
      let* rest := makePagesForTagGroups m' in
      Ok (createTagPage tag endpoints :: rest)
  end.

(** ** Summary and readme *)

Definition summary_link (f : GitBookFile) : string :=
  "[" ++ gb_path f ++ "](" ++ gb_path f ++ ")".

Definition createSummaryFile (gitBookFiles : list GitBookFile) : string :=
  "# Table of contents" ++ nl
  ++ nl
  ++ join nl (map summary_link gitBookFiles).

Definition createReadmeFile (spec : Document) : string :=
  "# " ++ info_title spec.

(** ** JSZip

    A JSZip instance is its [files] object, in key order, and the number of
    [new Date()] reads so far; [clock n] is the date read by the [n]-th
    [file] call. [file(name, data)] assigns [files[name]], so an existing
    name keeps its position and gets the new object (last write wins).
    The directory entries JSZip derives from the names ([.gitbook/]) are
    left out: they are a function of the file names. *)
Record ZipObject := {
  zo_name : string;
  zo_data : string;
  zo_date : Z
}.

Record JSZip := {
  zfiles : list ZipObject;
  zticks : nat
}.

Definition emptyZip : JSZip := {| zfiles := []; zticks := 0 |}.

Fixpoint put_file (o : ZipObject) (fs : list ZipObject) : list ZipObject :=
  match fs with
  | [] => [o]
  | o' :: fs' =>
      if String.eqb (zo_name o') (zo_name o) then o :: fs'
      else o' :: put_file o fs'
  end.

Definition zip_file (clock : nat -> Z) (fname data : string) (z : JSZip)
  : JSZip :=
  {| zfiles := put_file {| zo_name := fname; zo_data := data;
                           zo_date := clock (zticks z) |} (zfiles z);
     zticks := S (zticks z) |}.

(** [bundle.folder(dir).file(fname, data)] *)
Definition zip_folder_file (clock : nat -> Z) (dir fname data : string)
    (z : JSZip) : JSZip :=
  zip_file clock (dir ++ "/" ++ fname) data z.

Definition createZipBundle (clock : nat -> Z) (gitBookFiles : list GitBookFile)
    (spec : string) (parsedSpec : Document) : JSZip :=
  let bundle := zip_file clock "SUMMARY.md" (createSummaryFile gitBookFiles)
                  emptyZip in
  let bundle := zip_file clock "README.md" (createReadmeFile parsedSpec)
                  bundle in
  let bundle := fold_left (fun z f => zip_file clock (gb_path f) (contents f) z)
                  gitBookFiles bundle in
  zip_folder_file clock ".gitbook" "openapi.yaml" spec bundle.

(** The content of the archive entry named [fname]. *)
Fixpoint zip_lookup (fname : string) (fs : list ZipObject) : option string :=
  match fs with
  | [] => None
  | o :: fs' =>
      if String.eqb (zo_name o) fname then Some (zo_data o)
      else zip_lookup fname fs'
  end.

(** The logical file set: names and contents, without the dates. *)
Definition zo_view (o : ZipObject) : string * string := (zo_name o, zo_data o).

Definition logical_files (z : JSZip) : list (string * string) :=
  map zo_view (zfiles z).

(** The result of a run seen through [f]; a thrown error is kept. *)
Definition res_map {A B} (f : A -> B) (r : res A) : res B :=
  match r with
  | Ok a => Ok (f a)
  | Throw e => Throw e
  end.

(** ** handleFileUpload *)

Section Run.

(** [SwaggerParser.validate(YAML.parse(text))]: the external parser and
    resolver, a function of the decoded text. *)
Variable resolve : string -> res Document.

(** [clock] is the time source of the run's [new Date()] reads. The
    result is the filled JSZip; [generateAsync] only serializes it. *)
Definition handleFileUpload (clock : nat -> Z) (filecontentsdecoded : string)
  : res JSZip :=
  let* api := resolve filecontentsdecoded in
  let* endpointsGroupedByTag := collateTags api in
  let* pages := makePagesForTagGroups endpointsGroupedByTag in
  Ok (createZipBundle clock pages filecontentsdecoded api).

End Run.

(** ** Example documents *)

Definition op_tagged (ts : list string) : OperationObject :=
  {| tags := Some ts; summary := None |}.

Definition petsTag : TagObject :=
  {| name := "pets"; description := None; externalDocs := None |}.

(** The Pet Store scenario: [GET /pets] tagged [pets], [POST /owners]
    untagged. *)
Definition petStore : Document :=
  {| info_title := "Pet Store";
     paths := [("/pets", [("get", op_tagged ["pets"])]);
               ("/owners", [("post", op_tagged [])])];
     doc_tags := Some [petsTag] |}.

Definition petStoreText : string := "openapi: 3.0.0".

Definition clock0 (n : nat) : Z := Z.of_nat n.

(** Only [GET /pets], tagged [pets]. *)
Definition petsOnly : Document :=
  {| info_title := "Pets";
     paths := [("/pets", [("get", op_tagged ["pets"])])];
     doc_tags := Some [petsTag] |}.

(** [GET /pets] has no [tags] field. *)
Definition noTagsFieldDoc : Document :=
  {| info_title := "No tags";
     paths := [("/pets", [("get", {| tags := None; summary := Some "List" |})])];
     doc_tags := None |}.

(** [GET /pets] names the tag [missing], which [tags] does not declare. *)
Definition strayDoc : Document :=
  {| info_title := "Stray";
     paths := [("/pets", [("get", op_tagged ["missing"])])];
     doc_tags := Some [petsTag] |}.


(** ** Well-formed documents

    The keys of a JavaScript object are distinct: the path strings of
    [paths] and the method names of each Path Item. *)
Fixpoint keys_distinct (l : list string) : bool :=
  match l with
  | [] => true
  | x :: xs => negb (existsb (String.eqb x) xs) && keys_distinct xs
  end.

Definition wf_paths (ps : list (string * list (string * OperationObject)))
  : bool :=
  keys_distinct (map fst ps)
  && forallb (fun po => keys_distinct (map fst (snd po))) ps.

Definition is_untagged (e : Endpoint) : bool :=
  match tags (operationObject e) with
  | Some [] => true
  | _ => false
  end.

(** All endpoints of all groups of a [tagMap]. *)
Definition all_grouped (m : TagMap) : list Endpoint := flat_map snd m.

Definition endpoint_key (e : Endpoint) : string * string :=
  (path e, operation e).

(** Whether [tagMap] has the key [k] ([Map.prototype.has]). *)
Definition has_key (k : TKey) (m : TagMap) : bool :=
  existsb (key_eqb k) (map fst m).

(** The keys [collateTags] passes to [tagMap.set] for one endpoint, in
    order (for a run that does not throw). *)
Definition touch_keys (api : Document) (e : Endpoint) : list TKey :=
  match tags (operationObject e) with
  | Some [] => [KUntagged]
  | Some ts =>
      map (find_tag_from 0 (match doc_tags api with
                            | Some l => l
                            | None => []
                            end)) ts
  | None => []
  end.

(** The keys of a sequence in the order of their first occurrence. *)
Definition first_occ_from (acc ks : list TKey) : list TKey :=
  fold_left (fun acc k => if existsb (key_eqb k) acc then acc else acc ++ [k])
    ks acc.

Definition first_occ (ks : list TKey) : list TKey := first_occ_from [] ks.

(** ** The upload handler of [Home] *)

(** [String.prototype.endsWith]: the last [length t] characters of [s]
    are [t]. *)
Definition endsWith (s t : string) : bool :=
  let n := String.length s in
  let k := String.length t in
  Nat.leb k n && String.eqb (substring (n - k) k s) t.

Definition validateFileIsJsonOrYaml (fileName : string) : bool :=
  endsWith fileName ".json" || endsWith fileName ".yaml".

(** The React state of [Home]: the error message and the download link,
    which [URL.createObjectURL] makes for the serialized archive. *)
Record HomeState := {
  error : option string;
  zipUrl : option JSZip
}.

(** [event.target.files[0]]: its name and its text as [ab2str] decodes
    it; [None] when no file is selected. *)
Record SelectedFile := {
  file_name : string;
  file_text : string
}.

(** [handleFileUpload(event)] of [Home]: the new state and how the
    returned promise settles. *)
Definition handleFileUploadEvent (resolve : string -> res Document)
    (clock : nat -> Z) (file : option SelectedFile) (st : HomeState)
  : HomeState * res unit :=
  match file with
  | None => (st, Throw (TypeError "name"))
  | Some f =>
      if negb (validateFileIsJsonOrYaml (file_name f)) then
        ({| error := Some "File must be either JSON or YAML";
            zipUrl := zipUrl st |}, Ok tt)
      else
        match handleFileUpload resolve clock (file_text f) with
        | Ok bundle => ({| error := error st; zipUrl := Some bundle |}, Ok tt)
        | Throw e => (st, Throw e)
        end
  end.

(** ** Derived views used by the properties below *)

(** How many of [ks] are the key [k]. *)
Definition count_key (k : TKey) (ks : list TKey) : nat :=
  length (filter (key_eqb k) ks).

(** The names of a sequence in the order of their first occurrence. *)
Definition dedup_step (acc : list string) (n : string) : list string :=
  if existsb (String.eqb n) acc then acc else acc ++ [n].

Definition dedup_names (ns : list string) : list string :=
  fold_left dedup_step ns [].

(** The contents the last page named [n] leaves, [init] if none is. *)
Definition page_contents_at (n : string) (pages : list GitBookFile)
    (init : option string) : option string :=
  fold_left (fun acc f => if String.eqb (gb_path f) n then Some (contents f)
                          else acc) pages init.

(** Whether [collateTags] can run through: every entry has a [tags]
    array, and [api.tags] exists if any entry names a tag. *)
Definition collate_readyb (api : Document) : bool :=
  forallb (fun e => match tags (operationObject e) with
                    | None => false
                    | Some [] => true
                    | Some _ => match doc_tags api with
                                | Some _ => true
                                | None => false
                                end
                    end) (flatten (paths api)).

(** Whether the whole run can: every entry has a [tags] array and every
    tag name it lists is the name of a tag of [api.tags]. *)
Definition run_readyb (api : Document) : bool :=
  forallb (fun e => match tags (operationObject e) with
                    | None => false
                    | Some ts =>
                        forallb (fun n => match doc_tags api with
                                          | Some l => existsb (String.eqb n) (map name l)
                                          | None => false
                                          end) ts
                    end) (flatten (paths api)).

(** ** Lemmas on keys and the map *)

Lemma key_eqb_refl : forall k, key_eqb k k = true.
Proof. destruct k; simpl; auto using Nat.eqb_refl. Qed.

Lemma key_eqb_sym : forall a b, key_eqb a b = key_eqb b a.
Proof. destruct a, b; simpl; auto using Nat.eqb_sym. Qed.

Lemma key_eqb_trans : forall a b c,
  key_eqb a b = true -> key_eqb b c = key_eqb a c.
Proof.
  destruct a, b, c; simpl; intros H; try discriminate; auto.
  apply Nat.eqb_eq in H; subst; reflexivity.
Qed.

Lemma map_get_set_same : forall k v m, map_get k (map_set k v m) = Some v.
Proof.
  induction m as [|[k' v'] m IH]; simpl.
  - rewrite key_eqb_refl; reflexivity.
  - destruct (key_eqb k k') eqn:E; simpl; rewrite ?E; auto.
Qed.

Lemma map_get_set_other : forall q k v m,
  key_eqb q k = false -> map_get q (map_set k v m) = map_get q m.
Proof.
  intros q k v m Hq; induction m as [|[k' v'] m IH]; simpl.
  - rewrite Hq; reflexivity.
  - destruct (key_eqb k k') eqn:E; simpl.
    + rewrite key_eqb_sym in E.
      rewrite (key_eqb_sym q k'), <- (key_eqb_trans _ _ q E), key_eqb_sym, Hq.
      reflexivity.
    + rewrite IH; reflexivity.
Qed.

Lemma all_grouped_append : forall k e m x,
  In x (all_grouped (map_set k (get_or_nil k m ++ [e]) m))
  <-> In x (all_grouped m) \/ x = e.
Proof.
  intros k e m x; induction m as [|[k' v'] m IH].
  - unfold get_or_nil; simpl; intuition.
  - unfold get_or_nil in *; simpl.
    destruct (key_eqb k k') eqn:E; simpl.
    + rewrite !in_app_iff; simpl; intuition.
    + rewrite !in_app_iff, IH; intuition.
Qed.

Lemma find_tag_from_not_untagged : forall i l n, find_tag_from i l n <> KUntagged.
Proof.
  intros i l; revert i; induction l as [|t l IH]; intros i n; simpl.
  - discriminate.
  - destruct (String.eqb (name t) n); [discriminate | apply IH].
Qed.

Lemma find_tag_not_untagged : forall api n k,
  find_tag api n = Ok k -> key_eqb KUntagged k = false.
Proof.
  unfold find_tag; intros api n k H; destruct (doc_tags api); inversion H.
  pose proof (find_tag_from_not_untagged 0 l n).
  destruct (find_tag_from 0 l n); simpl; congruence.
Qed.

(** ** Collation invariants *)

Lemma add_to_tags_spec : forall api e ts m m',
  add_to_tags api e ts m = Ok m' ->
  (forall x, In x (all_grouped m') <-> In x (all_grouped m) \/ (x = e /\ ts <> []))
  /\ map_get KUntagged m' = map_get KUntagged m.
Proof.
  intros api e ts; induction ts as [|t ts IH]; intros m m' H; simpl in H.
  - inversion H; subst; split; [intuition | reflexivity].
  - destruct (find_tag api t) as [k|err] eqn:Ek; simpl in H; [|discriminate].
    destruct (IH _ _ H) as [Hin Hun]; split.
    + intros x; rewrite Hin, all_grouped_append.
      split; [intros [[?|?]|[? ?]]; subst; auto; right; split; auto; discriminate|].
      intros [?|[? _]]; auto.
    + rewrite Hun; apply map_get_set_other; eapply find_tag_not_untagged; eauto.
Qed.

Lemma collate_endpoint_spec : forall api m e m',
  collate_endpoint api m e = Ok m' ->
  (forall x, In x (all_grouped m') <-> In x (all_grouped m) \/ x = e)
  /\ get_or_nil KUntagged m' =
     get_or_nil KUntagged m ++ (if is_untagged e then [e] else []).
Proof.
  unfold collate_endpoint, is_untagged; intros api m e m' H.
  destruct (tags (operationObject e)) as [ts|]; [|discriminate].
  destruct ts as [|t ts]; cbn [length Nat.eqb] in H.
  - inversion H; subst; split.
    + intros x; apply all_grouped_append.
    + unfold get_or_nil at 1; rewrite map_get_set_same; reflexivity.
  - destruct (add_to_tags_spec _ _ _ _ _ H) as [Hin Hun]; split.
    + intros x; rewrite Hin; intuition discriminate.
    + unfold get_or_nil; rewrite Hun, app_nil_r; reflexivity.
Qed.

Lemma collate_loop_spec : forall api es m m',
  collate_loop api es m = Ok m' ->
  (forall x, In x (all_grouped m') <-> In x (all_grouped m) \/ In x es)
  /\ get_or_nil KUntagged m' = get_or_nil KUntagged m ++ filter is_untagged es.
Proof.
  intros api es; induction es as [|e es IH]; intros m m' H; simpl in H.
  - inversion H; subst; split; [simpl; intuition | rewrite app_nil_r; reflexivity].
  - destruct (collate_endpoint api m e) as [m1|err] eqn:E1; simpl in H;
      [|discriminate].
    destruct (collate_endpoint_spec _ _ _ _ E1) as [Hin1 Hun1].
    destruct (IH _ _ H) as [Hin Hun]; split.
    + intros x; rewrite Hin, Hin1; simpl; intuition.
    + rewrite Hun, Hun1, <- app_assoc; simpl.
      destruct (is_untagged e); reflexivity.
Qed.

(** ** Distinct endpoints of a well-formed document *)

Lemma existsb_eqb_false : forall x xs,
  existsb (String.eqb x) xs = false -> ~ In x xs.
Proof.
  intros x xs H Hin.
  assert (Hx : existsb (String.eqb x) xs = true).
  { apply existsb_exists; exists x; split; auto; apply String.eqb_refl. }
  rewrite H in Hx; discriminate.
Qed.

Lemma keys_distinct_NoDup : forall l, keys_distinct l = true -> NoDup l.
Proof.
  induction l as [|x xs IH]; simpl; intros H; constructor.
  - apply andb_prop in H as [H _]; apply negb_true_iff in H.
    now apply existsb_eqb_false.
  - apply andb_prop in H as [_ H]; auto.
Qed.

Lemma In_flatten_path : forall ps e,
  In e (flatten ps) -> In (path e) (map fst ps).
Proof.
  induction ps as [|[p ops] ps IH]; simpl; intros e H; [contradiction|].
  apply in_app_or in H as [H|H]; [left|right; auto].
  apply in_map_iff in H as [[op o] [<- _]]; reflexivity.
Qed.

Lemma flatten_item_NoDup : forall p ops,
  keys_distinct (map fst ops) = true ->
  NoDup (map endpoint_key
    (map (fun '(op, o) =>
            {| operationObject := o; path := p; operation := op |}) ops)).
Proof.
  intros p; induction ops as [|[op o] ops IH]; simpl; intros H; constructor.
  - apply andb_prop in H as [H _]; apply negb_true_iff, existsb_eqb_false in H.
    intros Hin; apply H.
    rewrite map_map in Hin; apply in_map_iff in Hin as [[op' o'] [Heq Hin]].
    unfold endpoint_key in Heq; simpl in Heq; inversion Heq; subst.
    apply in_map_iff; exists (op, o'); auto.
  - apply andb_prop in H as [_ H]; auto.
Qed.

Lemma flatten_NoDup : forall ps, wf_paths ps = true -> NoDup (flatten ps).
Proof.
  intros ps H; apply (NoDup_map_inv endpoint_key); revert H.
  induction ps as [|[p ops] ps IH]; unfold wf_paths; simpl; intros H;
    [constructor|].
  apply andb_prop in H as [Hk Hf]; apply andb_prop in Hk as [Hp Hk].
  apply andb_prop in Hf as [Hops Hf]; simpl in Hops.
  rewrite map_app; apply NoDup_app.
  - now apply flatten_item_NoDup.
  - apply IH; unfold wf_paths; rewrite Hk, Hf; reflexivity.
  - intros [p' op'] H1 H2.
    apply in_map_iff in H1 as [e1 [Heq1 H1]].
    apply in_map_iff in H1 as [[op o] [<- _]].
    unfold endpoint_key in Heq1; simpl in Heq1; inversion Heq1; subst.
    apply in_map_iff in H2 as [e2 [Heq2 H2]].
    unfold endpoint_key in Heq2; injection Heq2 as Hpe Hoe.
    apply negb_true_iff, existsb_eqb_false in Hp; apply Hp.
    rewrite <- Hpe; now apply In_flatten_path.
Qed.

Lemma NoDup_filter_once : forall (f : Endpoint -> bool) l x,
  NoDup l -> In x l -> f x = true ->
  exists l1 l2, filter f l = l1 ++ x :: l2 /\ ~ In x l1 /\ ~ In x l2.
Proof.
  intros f l x Hnd Hin Hf.
  destruct (in_split _ _ Hin) as [a [b ->]].
  apply NoDup_remove_2 in Hnd.
  exists (filter f a), (filter f b).
  rewrite filter_app; simpl; rewrite Hf; split; [reflexivity|].
  split; intros H; apply filter_In in H as [H _]; apply Hnd, in_or_app; auto.
Qed.

(** ** C1: grouping completeness *)

(** Claim C1. Whenever [collateTags] returns a grouping for a document
    whose object keys are distinct: the endpoints of all its groups are
    exactly the flattened endpoints of [paths]; an endpoint whose operation
    has at least one tag is not in the untagged group; an endpoint whose
    operation has no tags is in the untagged group exactly once. *)
Theorem collateTags_complete : forall api m,
  wf_paths (paths api) = true ->
  collateTags api = Ok m ->
  (forall e, In e (all_grouped m) <-> In e (flatten (paths api)))
  /\ (forall e t ts, tags (operationObject e) = Some (t :: ts) ->
        ~ In e (get_or_nil KUntagged m))
  /\ (forall e, In e (flatten (paths api)) -> tags (operationObject e) = Some [] ->
        exists l1 l2, get_or_nil KUntagged m = l1 ++ e :: l2
                      /\ ~ In e l1 /\ ~ In e l2).
Proof.
  intros api m Hwf H; unfold collateTags in H.
  destruct (collate_loop_spec _ _ _ _ H) as [Hin Hun].
  change (get_or_nil KUntagged []) with (@nil Endpoint) in Hun; simpl in Hun.
  split; [|split].
  - intros e; rewrite Hin; simpl; intuition.
  - intros e t ts Ht Hu; rewrite Hun in Hu.
    apply filter_In in Hu as [_ Hu]; unfold is_untagged in Hu.
    rewrite Ht in Hu; discriminate.
  - intros e He Ht; rewrite Hun.
    apply NoDup_filter_once; auto using flatten_NoDup.
    unfold is_untagged; rewrite Ht; reflexivity.
Qed.

Lemma collateTags_complete_witness :
  wf_paths (paths petStore) = true
  /\ collateTags petStore =
     Ok [(KTag 0 petsTag,
          [{| operationObject := op_tagged ["pets"]; path := "/pets";
              operation := "get" |}]);
         (KUntagged,
          [{| operationObject := op_tagged []; path := "/owners";
              operation := "post" |}])]
  /\ (forall e, In e (all_grouped
         [(KTag 0 petsTag,
           [{| operationObject := op_tagged ["pets"]; path := "/pets";
               operation := "get" |}]);
          (KUntagged,
           [{| operationObject := op_tagged []; path := "/owners";
               operation := "post" |}])])
       <-> In e (flatten (paths petStore))).
Proof.
  split; [reflexivity|]; split; [reflexivity|].
  apply (collateTags_complete petStore); reflexivity.
Defined.

(** ** Keys of the grouping *)

Lemma keys_map_set : forall k v m,
  map fst (map_set k v m) =
  if has_key k m then map fst m else map fst m ++ [k].
Proof.
  unfold has_key; intros k v m; induction m as [|[k' v'] m IH]; simpl; auto.
  destruct (key_eqb k k'); simpl; auto.
  rewrite IH; destruct (existsb (key_eqb k) (map fst m)); reflexivity.
Qed.

Lemma has_key_map_set_same : forall k v m, has_key k (map_set k v m) = true.
Proof.
  unfold has_key; intros k v m; rewrite keys_map_set; fold (has_key k m).
  destruct (has_key k m) eqn:E; auto.
  rewrite existsb_app; simpl; rewrite key_eqb_refl, orb_true_r; reflexivity.
Qed.

Lemma has_key_map_set : forall q k v m,
  has_key q m = true -> has_key q (map_set k v m) = true.
Proof.
  unfold has_key; intros q k v m H; rewrite keys_map_set; fold (has_key k m).
  destruct (has_key k m); auto; rewrite existsb_app, H; reflexivity.
Qed.

Lemma add_to_tags_keys : forall api l e ts m m',
  doc_tags api = Some l ->
  add_to_tags api e ts m = Ok m' ->
  map fst m' = first_occ_from (map fst m) (map (find_tag_from 0 l) ts).
Proof.
  intros api l e ts; induction ts as [|t ts IH]; intros m m' Hl H; simpl in H.
  - inversion H; reflexivity.
  - unfold find_tag in H; rewrite Hl in H; simpl in H.
    rewrite (IH _ _ Hl H), keys_map_set; unfold has_key; reflexivity.
Qed.

Lemma collate_endpoint_keys : forall api m e m',
  collate_endpoint api m e = Ok m' ->
  map fst m' = first_occ_from (map fst m) (touch_keys api e).
Proof.
  unfold collate_endpoint, touch_keys; intros api m e m' H.
  destruct (tags (operationObject e)) as [ts|]; [|discriminate].
  destruct ts as [|t ts]; cbn [length Nat.eqb] in H.
  - inversion H; subst; rewrite keys_map_set; unfold has_key; reflexivity.
  - destruct (doc_tags api) as [l|] eqn:Hl.
    + now apply (add_to_tags_keys api l e (t :: ts)).
    + simpl in H; unfold find_tag in H; rewrite Hl in H; discriminate.
Qed.

Lemma collate_loop_keys : forall api es m m',
  collate_loop api es m = Ok m' ->
  map fst m' = first_occ_from (map fst m) (flat_map (touch_keys api) es).
Proof.
  intros api es; induction es as [|e es IH]; intros m m' H; simpl in H.
  - inversion H; reflexivity.
  - destruct (collate_endpoint api m e) as [m1|err] eqn:E1; simpl in H;
      [|discriminate].
    rewrite (IH _ _ H), (collate_endpoint_keys _ _ _ _ E1).
    unfold first_occ_from; rewrite <- fold_left_app; reflexivity.
Qed.

Lemma first_occ_from_incl : forall ks acc k,
  In k (first_occ_from acc ks) -> In k acc \/ In k ks.
Proof.
  unfold first_occ_from; induction ks as [|k0 ks IH]; simpl; intros acc k H;
    auto.
  apply IH in H as [H|H]; auto.
  destruct (existsb (key_eqb k0) acc); auto.
  apply in_app_or in H as [H|[H|[]]]; auto.
Qed.

Lemma add_to_tags_has_key : forall api e ts m m' q,
  add_to_tags api e ts m = Ok m' -> has_key q m = true -> has_key q m' = true.
Proof.
  intros api e ts; induction ts as [|t ts IH]; intros m m' q H Hq; simpl in H.
  - inversion H; subst; auto.
  - destruct (find_tag api t); simpl in H; [|discriminate].
    eapply IH; eauto using has_key_map_set.
Qed.

Lemma add_to_tags_touch : forall api e ts m m' n k,
  add_to_tags api e ts m = Ok m' -> In n ts -> find_tag api n = Ok k ->
  has_key k m' = true.
Proof.
  intros api e ts; induction ts as [|t ts IH]; intros m m' n k H Hn Hk;
    simpl in H; [contradiction|].
  destruct (find_tag api t) as [k0|] eqn:E0; simpl in H; [|discriminate].
  destruct Hn as [<-|Hn]; [|eapply IH; eauto].
  rewrite Hk in E0; inversion E0; subst.
  eapply add_to_tags_has_key; eauto using has_key_map_set_same.
Qed.

Lemma collate_endpoint_has_key : forall api m e m' q,
  collate_endpoint api m e = Ok m' -> has_key q m = true -> has_key q m' = true.
Proof.
  unfold collate_endpoint; intros api m e m' q H Hq.
  destruct (tags (operationObject e)) as [ts|]; [|discriminate].
  eapply add_to_tags_has_key; [exact H|].
  destruct (Nat.eqb (length ts) 0); auto using has_key_map_set.
Qed.

Lemma collate_loop_has_key : forall api es m m' q,
  collate_loop api es m = Ok m' -> has_key q m = true -> has_key q m' = true.
Proof.
  intros api es; induction es as [|e es IH]; intros m m' q H Hq; simpl in H.
  - inversion H; subst; auto.
  - destruct (collate_endpoint api m e) as [m1|] eqn:E1; simpl in H;
      [|discriminate].
    eapply IH; eauto using collate_endpoint_has_key.
Qed.

Lemma collate_loop_touch : forall api es m m' e ts n k,
  collate_loop api es m = Ok m' -> In e es ->
  tags (operationObject e) = Some ts -> In n ts -> find_tag api n = Ok k ->
  has_key k m' = true.
Proof.
  intros api es; induction es as [|e0 es IH]; intros m m' e ts n k H He Ht Hn Hk;
    simpl in H; [contradiction|].
  destruct (collate_endpoint api m e0) as [m1|] eqn:E1; simpl in H;
    [|discriminate].
  destruct He as [<-|He]; [|eapply IH; eauto].
  eapply collate_loop_has_key; [exact H|].
  unfold collate_endpoint in E1; rewrite Ht in E1.
  eapply add_to_tags_touch; eauto.
Qed.

Lemma find_tag_from_absent : forall l i n,
  ~ In n (map name l) -> find_tag_from i l n = KUndefined.
Proof.
  induction l as [|t l IH]; simpl; intros i n H; auto.
  destruct (String.eqb (name t) n) eqn:E.
  - apply String.eqb_eq in E; exfalso; auto.
  - apply IH; auto.
Qed.

Lemma has_key_undefined : forall m,
  has_key KUndefined m = true -> In KUndefined (map fst m).
Proof.
  unfold has_key; induction m as [|[k v] m IH]; simpl; intros H;
    [discriminate|].
  destruct k; simpl in H; auto.
Qed.

Lemma makePages_undefined : forall m,
  In KUndefined (map fst m) -> makePagesForTagGroups m = Throw (TypeError "name").
Proof.
  induction m as [|[k v] m IH]; simpl; intros H; [contradiction|].
  destruct H as [Hk|H]; [subst; reflexivity|].
  destruct k; simpl; rewrite ?IH; auto.
Qed.



(** ** C2: operations naming undeclared tags *)


(** ** C3: the tag page *)

(** Claim C3 (code bug at the failing input). The page of the tag
    [pets], which has neither [description] nor [externalDocs], shows the
    word [undefined] in the description line and in the external-docs
    line instead of leaving them out. *)
Theorem createTagPage_absent_fields :
  createTagPage petsTag [] =
  {| gb_path := "pets.md";
     contents := "# pets" ++ nl ++ nl ++ "undefined" ++ nl ++ nl ++ "undefined" |}.
Proof. reflexivity. Qed.

(** ** The archive *)

Lemma zip_lookup_put : forall o fs n,
  zip_lookup n (put_file o fs) =
  if String.eqb (zo_name o) n then Some (zo_data o) else zip_lookup n fs.
Proof.
  intros o fs n; induction fs as [|o' fs IH]; simpl; auto.
  destruct (String.eqb (zo_name o') (zo_name o)) eqn:E; simpl.
  - apply String.eqb_eq in E; rewrite E.
    destruct (String.eqb (zo_name o) n); reflexivity.
  - rewrite IH; destruct (String.eqb (zo_name o') n) eqn:E'; auto.
    destruct (String.eqb (zo_name o) n) eqn:E''; auto.
    apply String.eqb_eq in E'; apply String.eqb_eq in E''.
    rewrite E', E'', String.eqb_refl in E; discriminate.
Qed.

Lemma createZipBundle_spec_entry : forall clock pages spec doc,
  zip_lookup ".gitbook/openapi.yaml" (zfiles (createZipBundle clock pages spec doc))
  = Some spec.
Proof.
  intros; unfold createZipBundle, zip_folder_file, zip_file at 1; simpl.
  rewrite zip_lookup_put; reflexivity.
Qed.

Lemma md_name_not_assets_spec : forall s : string,
  (s ++ ".md")%string <> ".gitbook/assets/openapi.yaml".
Proof.
  intros s H.
  repeat (destruct s as [|? s]; simpl in H;
          [discriminate H | first [discriminate H | injection H as _ H]]).
Qed.

Lemma fold_pages_lookup_assets : forall clock pages z,
  Forall (fun f => exists t, gb_path f = (name t ++ ".md")%string) pages ->
  zip_lookup ".gitbook/assets/openapi.yaml" (zfiles z) = None ->
  zip_lookup ".gitbook/assets/openapi.yaml"
    (zfiles (fold_left (fun z f => zip_file clock (gb_path f) (contents f) z)
               pages z)) = None.
Proof.
  intros clock; induction pages as [|f pages IH]; simpl; intros z Hp Hz; auto.
  inversion Hp as [|? ? [t Ht] Hp']; subst.
  apply IH; auto; simpl; rewrite zip_lookup_put, Hz; simpl.
  destruct (String.eqb (gb_path f) ".gitbook/assets/openapi.yaml") eqn:E; auto.
  apply String.eqb_eq in E; rewrite Ht in E.
  exfalso; exact (md_name_not_assets_spec _ E).
Qed.

Lemma makePages_paths : forall m pages,
  makePagesForTagGroups m = Ok pages ->
  Forall2 (fun kv f => exists t, key_tag (fst kv) = Ok t
                                 /\ f = createTagPage t (snd kv)) m pages.
Proof.
  induction m as [|[k v] m IH]; simpl; intros pages H.
  - inversion H; constructor.
  - destruct (key_tag k) as [t|] eqn:Ek; simpl in H; [|discriminate].
    destruct (makePagesForTagGroups m) as [rest|]; simpl in H; [|discriminate].
    inversion H; subst; constructor; eauto.
Qed.

Lemma makePages_md : forall m pages,
  makePagesForTagGroups m = Ok pages ->
  Forall (fun f => exists t, gb_path f = (name t ++ ".md")%string) pages.
Proof.
  intros m pages H; apply makePages_paths in H.
  induction H as [|kv f m pages [t [_ ->]] _ IH]; constructor; auto.
  exists t; reflexivity.
Qed.

(** The relative reference of every embedded block and the archive name of
    the spec, for every archive the run produces. *)
Lemma handleFileUpload_spec_location : forall resolve clock raw z,
  handleFileUpload resolve clock raw = Ok z ->
  zip_lookup ".gitbook/openapi.yaml" (zfiles z) = Some raw
  /\ zip_lookup ".gitbook/assets/openapi.yaml" (zfiles z) = None.
Proof.
  unfold handleFileUpload; intros resolve clock raw z H.
  destruct (resolve raw) as [api|]; simpl in H; [|discriminate].
  destruct (collateTags api) as [m|]; simpl in H; [|discriminate].
  destruct (makePagesForTagGroups m) as [pages|] eqn:Hp; simpl in H;
    [|discriminate].
  inversion H; subst; split; [apply createZipBundle_spec_entry|].
  unfold createZipBundle, zip_folder_file, zip_file at 1; simpl.
  rewrite zip_lookup_put; simpl.
  apply fold_pages_lookup_assets; [eapply makePages_md; eauto|].
  reflexivity.
Qed.

(** ** C4: where the embedded blocks point *)

(** Claim C4 (code bug at the failing input). For the Pet Store document,
    the block of [GET /pets] references [./.gitbook/assets/openapi.yaml],
    while the archive stores the spec text at [.gitbook/openapi.yaml] and
    has no entry at [.gitbook/assets/openapi.yaml]. *)
Theorem embedded_reference_mismatch :
  createGitBookOpenAPITag
    {| operationObject := op_tagged ["pets"]; path := "/pets"; operation := "get" |}
  = (nl ++ "{% swagger src=" ++ dq ++ "./.gitbook/assets/openapi.yaml" ++ dq
       ++ " path=" ++ dq ++ "/pets" ++ dq ++ " method=" ++ dq ++ "get" ++ dq
       ++ " %}" ++ nl
    ++ "[openapi.yaml](<./.gitbook/assets/openapi.yaml>)" ++ nl
    ++ "{% endswagger %}" ++ nl ++ "  ")%string
  /\ exists z, handleFileUpload (fun _ => Ok petStore) clock0 petStoreText = Ok z
     /\ zip_lookup ".gitbook/openapi.yaml" (zfiles z) = Some petStoreText
     /\ zip_lookup ".gitbook/assets/openapi.yaml" (zfiles z) = None.
Proof.
  split; [reflexivity|].
  eexists; split; [reflexivity|].
  apply (handleFileUpload_spec_location (fun _ => Ok petStore) clock0).
  reflexivity.
Qed.

(** ** C5: summary and pages *)

(** Claim C5. For a run that groups and renders: the keys of the grouping
    are the keys passed to [tagMap.set], in the order of their first
    insertion; the pages are the groups, one each, in that order; and
    [SUMMARY.md] has one link [[path](path)] per page, in page order. *)
Theorem summary_matches_pages : forall api m pages,
  collateTags api = Ok m ->
  makePagesForTagGroups m = Ok pages ->
  map fst m = first_occ (flat_map (touch_keys api) (flatten (paths api)))
  /\ Forall2 (fun kv f => exists t, key_tag (fst kv) = Ok t
                                   /\ f = createTagPage t (snd kv)) m pages
  /\ createSummaryFile pages =
     ("# Table of contents" ++ nl ++ nl
      ++ join nl (map (fun f => "[" ++ gb_path f ++ "](" ++ gb_path f ++ ")")
                   pages))%string.
Proof.
  intros api m pages Hc Hp; split; [|split].
  - exact (collate_loop_keys _ _ _ _ Hc).
  - now apply makePages_paths.
  - reflexivity.
Qed.

Lemma summary_matches_pages_witness :
  exists m pages,
  collateTags petStore = Ok m /\ makePagesForTagGroups m = Ok pages
  /\ map fst m = first_occ (flat_map (touch_keys petStore) (flatten (paths petStore)))
  /\ Forall2 (fun kv f => exists t, key_tag (fst kv) = Ok t
                                   /\ f = createTagPage t (snd kv)) m pages
  /\ createSummaryFile pages =
     ("# Table of contents" ++ nl ++ nl
      ++ join nl (map (fun f => "[" ++ gb_path f ++ "](" ++ gb_path f ++ ")")
                   pages))%string.
Proof.
  do 2 eexists; split; [reflexivity|]; split; [reflexivity|].
  apply (summary_matches_pages petStore); reflexivity.
Defined.

(** ** C6: the embedded spec *)

(** Claim C6. Every archive the run produces holds, at
    [.gitbook/openapi.yaml], exactly the decoded input text, whatever its
    syntax. *)
Theorem spec_embedded_verbatim : forall resolve clock raw z,
  handleFileUpload resolve clock raw = Ok z ->
  zip_lookup ".gitbook/openapi.yaml" (zfiles z) = Some raw.
Proof.
  intros resolve clock raw z H.
  exact (proj1 (handleFileUpload_spec_location _ _ _ _ H)).
Qed.

Lemma spec_embedded_verbatim_witness :
  exists z, handleFileUpload (fun _ => Ok petStore) clock0 petStoreText = Ok z
  /\ zip_lookup ".gitbook/openapi.yaml" (zfiles z) = Some petStoreText.
Proof.
  eexists; split; [reflexivity|].
  apply (spec_embedded_verbatim (fun _ => Ok petStore) clock0); reflexivity.
Defined.

(** ** C7: no untagged page when every operation is tagged *)

Lemma pages_from_declared : forall m pages,
  Forall2 (fun kv f => exists t, key_tag (fst kv) = Ok t
                                 /\ f = createTagPage t (snd kv)) m pages ->
  Forall (fun kv => fst kv <> KUntagged) m ->
  Forall2 (fun kv f => exists i t, fst kv = KTag i t
                                   /\ f = createTagPage t (snd kv)) m pages.
Proof.
  intros m pages H; induction H as [|[k v] f m pages [t [Hk ->]] _ IH];
    intros Hn; constructor; inversion Hn; subst; auto.
  destruct k; simpl in *; try congruence.
  inversion Hk; subst; eauto.
Qed.

(** Claim C7. If every operation declares at least one tag, the grouping
    has no untagged key, and every page, hence every [SUMMARY.md] link, is
    that of a declared tag. *)
Theorem all_tagged_no_untagged_page : forall api m,
  collateTags api = Ok m ->
  (forall e, In e (flatten (paths api)) ->
     exists t ts, tags (operationObject e) = Some (t :: ts)) ->
  ~ In KUntagged (map fst m)
  /\ forall pages, makePagesForTagGroups m = Ok pages ->
     Forall2 (fun kv f => exists i t, fst kv = KTag i t
                                      /\ f = createTagPage t (snd kv)) m pages.
Proof.
  intros api m Hc Hall.
  assert (Hn : ~ In KUntagged (map fst m)).
  { rewrite (collate_loop_keys _ _ _ _ Hc); intros H.
    apply first_occ_from_incl in H as [[]|H].
    apply in_flat_map in H as [e [He Hk]].
    destruct (Hall e He) as [t [ts Ht]].
    unfold touch_keys in Hk; rewrite Ht in Hk.
    apply in_map_iff in Hk as [n [Hk _]].
    exact (find_tag_from_not_untagged _ _ _ Hk). }
  split; [exact Hn|].
  intros pages Hp; apply pages_from_declared; [now apply makePages_paths|].
  apply Forall_forall; intros kv Hkv Heq; apply Hn.
  rewrite <- Heq; now apply in_map.
Qed.

Lemma all_tagged_no_untagged_page_witness :
  exists m pages,
  collateTags petsOnly = Ok m /\ makePagesForTagGroups m = Ok pages
  /\ ~ In KUntagged (map fst m)
  /\ Forall2 (fun kv f => exists i t, fst kv = KTag i t
                                     /\ f = createTagPage t (snd kv)) m pages.
Proof.
  do 2 eexists; split; [reflexivity|]; split; [reflexivity|].
  destruct (all_tagged_no_untagged_page petsOnly _ eq_refl) as [H1 H2].
  - intros e He; simpl in He; destruct He as [<-|[]]; simpl; eauto.
  - split; [exact H1|apply H2; reflexivity].
Defined.

(** ** C8: determinism of the logical file set *)

Lemma put_file_view : forall o1 o2 fs1 fs2,
  zo_view o1 = zo_view o2 -> map zo_view fs1 = map zo_view fs2 ->
  map zo_view (put_file o1 fs1) = map zo_view (put_file o2 fs2).
Proof.
  intros o1 o2 fs1; induction fs1 as [|a fs1 IH]; intros fs2 Ho Hfs;
    destruct fs2 as [|b fs2]; simpl in *; try discriminate; auto.
  - rewrite Ho; reflexivity.
  - inversion Hfs as [[Hn Hd]]; unfold zo_view in Ho; inversion Ho as [[Hn' Hd']].
    rewrite Hn, Hn'; destruct (String.eqb (zo_name b) (zo_name o2)); simpl.
    + unfold zo_view in *; rewrite Hn', Hd'; f_equal; exact H.
    + f_equal; [unfold zo_view; congruence | apply IH; auto].
Qed.

Lemma zip_file_view : forall c1 c2 n d z1 z2,
  logical_files z1 = logical_files z2 ->
  logical_files (zip_file c1 n d z1) = logical_files (zip_file c2 n d z2).
Proof.
  unfold logical_files, zip_file; simpl; intros.
  apply put_file_view; auto.
Qed.

Lemma fold_pages_view : forall c1 c2 pages z1 z2,
  logical_files z1 = logical_files z2 ->
  logical_files (fold_left (fun z f => zip_file c1 (gb_path f) (contents f) z)
                   pages z1)
  = logical_files (fold_left (fun z f => zip_file c2 (gb_path f) (contents f) z)
                     pages z2).
Proof.
  intros c1 c2; induction pages as [|f pages IH]; simpl; intros z1 z2 H; auto.
  apply IH, zip_file_view; auto.
Qed.

Lemma createZipBundle_view : forall c1 c2 pages spec doc,
  logical_files (createZipBundle c1 pages spec doc)
  = logical_files (createZipBundle c2 pages spec doc).
Proof.
  intros; unfold createZipBundle, zip_folder_file.
  apply zip_file_view, fold_pages_view; do 2 apply zip_file_view; reflexivity.
Qed.

(** Claim C8. Two runs on the same input text, whatever the dates their
    [new Date()] reads return, end the same way: both throw the same error,
    or both produce archives with the same entry names and contents in the
    same order. *)
Theorem handleFileUpload_logical_deterministic : forall resolve c1 c2 raw,
  res_map logical_files (handleFileUpload resolve c1 raw)
  = res_map logical_files (handleFileUpload resolve c2 raw).
Proof.
  intros resolve c1 c2 raw; unfold handleFileUpload.
  destruct (resolve raw) as [api|]; simpl; auto.
  destruct (collateTags api) as [m|]; simpl; auto.
  destruct (makePagesForTagGroups m) as [pages|]; simpl; auto.
  rewrite (createZipBundle_view c1 c2); reflexivity.
Qed.

(** ** C9: the summary header *)

(** Claim C9. Every summary starts with the line [# Table of contents]
    and an empty line, before any page link. *)
Theorem summary_header : forall pages,
  exists rest, createSummaryFile pages =
               ("# Table of contents" ++ nl ++ nl ++ rest)%string.
Proof.
  intros pages; exists (join nl (map summary_link pages)); reflexivity.
Qed.

(** ** C10: operations without a tags field *)

Lemma collate_loop_missing_tags : forall api es m e,
  In e es -> tags (operationObject e) = None ->
  exists err, collate_loop api es m = Throw err.
Proof.
  intros api es; induction es as [|e0 es IH]; intros m e He Ht;
    [contradiction|]; simpl.
  destruct He as [<-|He].
  - unfold collate_endpoint; rewrite Ht; simpl; eauto.
  - destruct (collate_endpoint api m e0) as [m1|err]; simpl; eauto.
Qed.

(** Claim C10. If some operation (or other Path Item entry) has no [tags]
    field, [collateTags] throws, and the run produces no archive. *)
Theorem missing_tags_field_aborts : forall resolve clock raw api e,
  resolve raw = Ok api ->
  In e (flatten (paths api)) -> tags (operationObject e) = None ->
  (exists err, collateTags api = Throw err)
  /\ (exists err, handleFileUpload resolve clock raw = Throw err).
Proof.
  intros resolve clock raw api e Hr He Ht.
  destruct (collate_loop_missing_tags api _ [] e He Ht) as [err Herr].
  split; exists err; [exact Herr|].
  unfold handleFileUpload; rewrite Hr; simpl.
  unfold collateTags in *; rewrite Herr; reflexivity.
Qed.

Lemma missing_tags_field_aborts_witness :
  (exists err, collateTags noTagsFieldDoc = Throw err)
  /\ (exists err, handleFileUpload (fun _ => Ok noTagsFieldDoc) clock0 "x"
                  = Throw err).
Proof.
  apply (missing_tags_field_aborts (fun _ => Ok noTagsFieldDoc) clock0 "x"
           noTagsFieldDoc
           {| operationObject := {| tags := None; summary := Some "List" |};
              path := "/pets"; operation := "get" |}).
  - reflexivity.
  - simpl; auto.
  - reflexivity.
Defined.

(** * Further properties of the code *)

(** ** String lengths *)

Lemma str_length_app : forall a b : string,
  String.length (a ++ b) = String.length a + String.length b.
Proof. induction a; simpl; auto. Qed.

(** ** The handler's state *)

(** Extra: the upload handler never clears or rewrites an error message
    other than by the file-name message, and never drops a download link:
    afterwards the error is the old one or the name message, and the link
    is the old one or the archive the run built from the file's text. *)
Theorem handleFileUploadEvent_monotone : forall resolve clock file st,
  (error (fst (handleFileUploadEvent resolve clock file st)) = error st
   \/ error (fst (handleFileUploadEvent resolve clock file st))
      = Some "File must be either JSON or YAML")
  /\ (zipUrl (fst (handleFileUploadEvent resolve clock file st)) = zipUrl st
      \/ exists f z, file = Some f
         /\ handleFileUpload resolve clock (file_text f) = Ok z
         /\ zipUrl (fst (handleFileUploadEvent resolve clock file st)) = Some z).
Proof.
  intros resolve clock file st; unfold handleFileUploadEvent.
  destruct file as [f|]; simpl; auto.
  destruct (validateFileIsJsonOrYaml (file_name f)); simpl; auto.
  destruct (handleFileUpload resolve clock (file_text f)) as [z|e] eqn:E;
    simpl; auto.
  split; auto; right; exists f, z; auto.
Qed.

(** ** Contents of each group *)

Lemma map_get_equiv : forall q k m,
  key_eqb q k = true -> map_get q m = map_get k m.
Proof.
  intros q k m H; induction m as [|[k' v'] m IH]; simpl; auto.
  rewrite (key_eqb_trans q k k' H), IH; reflexivity.
Qed.

Lemma map_get_set : forall q k v m,
  map_get q (map_set k v m) = if key_eqb q k then Some v else map_get q m.
Proof.
  intros q k v m; destruct (key_eqb q k) eqn:Hq; [|now apply map_get_set_other].
  rewrite (map_get_equiv q k _ Hq); apply map_get_set_same.
Qed.

Lemma get_or_nil_append : forall q k e m,
  get_or_nil q (map_set k (get_or_nil k m ++ [e]) m)
  = get_or_nil q m ++ (if key_eqb q k then [e] else []).
Proof.
  intros q k e m; unfold get_or_nil at 1; rewrite map_get_set.
  destruct (key_eqb q k) eqn:Hq.
  - unfold get_or_nil; rewrite (map_get_equiv q k m Hq); reflexivity.
  - rewrite app_nil_r; reflexivity.
Qed.

Lemma count_key_cons : forall q k ks,
  count_key q (k :: ks) = (if key_eqb q k then 1 else 0) + count_key q ks.
Proof. unfold count_key; intros; simpl; destruct (key_eqb q k); reflexivity. Qed.

Lemma add_to_tags_group : forall api l e ts m m' q,
  doc_tags api = Some l ->
  add_to_tags api e ts m = Ok m' ->
  get_or_nil q m' = get_or_nil q m
                    ++ repeat e (count_key q (map (find_tag_from 0 l) ts)).
Proof.
  intros api l e ts; induction ts as [|t ts IH]; intros m m' q Hl H; simpl in H.
  - inversion H; subst; rewrite app_nil_r; reflexivity.
  - unfold find_tag in H; rewrite Hl in H; simpl in H.
    rewrite (IH _ _ q Hl H), get_or_nil_append, <- app_assoc.
    simpl map; rewrite count_key_cons.
    destruct (key_eqb q (find_tag_from 0 l t)); reflexivity.
Qed.

Lemma collate_endpoint_group : forall api m e m' q,
  collate_endpoint api m e = Ok m' ->
  get_or_nil q m' = get_or_nil q m ++ repeat e (count_key q (touch_keys api e)).
Proof.
  unfold collate_endpoint, touch_keys; intros api m e m' q H.
  destruct (tags (operationObject e)) as [ts|]; [|discriminate].
  destruct ts as [|t ts]; cbn [length Nat.eqb] in H.
  - inversion H; subst; rewrite get_or_nil_append, count_key_cons.
    unfold count_key; simpl; destruct (key_eqb q KUntagged); reflexivity.
  - destruct (doc_tags api) as [l|] eqn:Hl.
    + exact (add_to_tags_group api l e (t :: ts) m m' q Hl H).
    + simpl in H; unfold find_tag in H; rewrite Hl in H; discriminate.
Qed.

Lemma collate_loop_group : forall api es m m' q,
  collate_loop api es m = Ok m' ->
  get_or_nil q m' = get_or_nil q m
    ++ flat_map (fun e => repeat e (count_key q (touch_keys api e))) es.
Proof.
  intros api es; induction es as [|e es IH]; intros m m' q H; simpl in H.
  - inversion H; subst; rewrite app_nil_r; reflexivity.
  - destruct (collate_endpoint api m e) as [m1|] eqn:E1; simpl in H;
      [|discriminate].
    rewrite (IH _ _ q H), (collate_endpoint_group _ _ _ _ q E1), <- app_assoc.
    reflexivity.
Qed.

(** Extra: the group of any key [k] lists the endpoints in traversal order
    (paths, then methods, as declared), each repeated once per tag of its
    operation that resolves to [k] (once for the untagged key if it has no
    tags), so an operation listing the same tag twice is in its group twice. *)
Theorem collateTags_group_contents : forall api m k,
  collateTags api = Ok m ->
  get_or_nil k m =
  flat_map (fun e => repeat e (count_key k (touch_keys api e))) (flatten (paths api)).
Proof.
  intros api m k H; exact (collate_loop_group _ _ _ _ k H).
Qed.

Lemma collateTags_group_contents_witness :
  exists m, collateTags petStore = Ok m
  /\ get_or_nil (KTag 0 petsTag) m =
     flat_map (fun e => repeat e (count_key (KTag 0 petsTag) (touch_keys petStore e)))
       (flatten (paths petStore)).
Proof.
  eexists; split; [reflexivity|].
  apply (collateTags_group_contents petStore); reflexivity.
Defined.

(** ** When collation, rendering and the run succeed *)

Lemma add_to_tags_total : forall api l e ts m,
  doc_tags api = Some l -> exists m', add_to_tags api e ts m = Ok m'.
Proof.
  intros api l e ts; induction ts as [|t ts IH]; intros m Hl; simpl; eauto.
  unfold find_tag; rewrite Hl; simpl; apply IH; auto.
Qed.

Lemma collate_loop_ok_ready : forall api es m m',
  collate_loop api es m = Ok m' ->
  forallb (fun e => match tags (operationObject e) with
                    | None => false
                    | Some [] => true
                    | Some _ => match doc_tags api with
                                | Some _ => true
                                | None => false
                                end
                    end) es = true.
Proof.
  intros api es; induction es as [|e es IH]; intros m m' H; simpl in *; auto.
  destruct (collate_endpoint api m e) as [m1|] eqn:E1; simpl in H;
    [|discriminate].
  rewrite (IH _ _ H), andb_true_r.
  unfold collate_endpoint in E1.
  destruct (tags (operationObject e)) as [[|t ts]|]; try discriminate; auto.
  destruct (doc_tags api) eqn:Hl; auto.
  simpl in E1; unfold find_tag in E1; rewrite Hl in E1; discriminate.
Qed.

Lemma collate_loop_ready_ok : forall api es m,
  forallb (fun e => match tags (operationObject e) with
                    | None => false
                    | Some [] => true
                    | Some _ => match doc_tags api with
                                | Some _ => true
                                | None => false
                                end
                    end) es = true ->
  exists m', collate_loop api es m = Ok m'.
Proof.
  intros api es; induction es as [|e es IH]; intros m H; simpl in *; eauto.
  apply andb_prop in H as [He Hes].
  unfold collate_endpoint.
  destruct (tags (operationObject e)) as [[|t ts]|]; try discriminate.
  - simpl; apply IH; auto.
  - destruct (doc_tags api) as [l|] eqn:Hl; try discriminate.
    destruct (add_to_tags_total api l e (t :: ts)
                (if Nat.eqb (length (t :: ts)) 0
                 then map_set KUntagged (get_or_nil KUntagged m ++ [e]) m
                 else m) Hl) as [m1 ->].
    simpl; apply IH; auto.
Qed.

Lemma collate_ready_iff : forall api,
  (exists m, collateTags api = Ok m) <-> collate_readyb api = true.
Proof.
  intros api; unfold collateTags, collate_readyb; split.
  - intros [m H]; exact (collate_loop_ok_ready _ _ _ _ H).
  - intros H; exact (collate_loop_ready_ok _ _ _ H).
Qed.

Lemma makePages_cases : forall m,
  (In KUndefined (map fst m)
   /\ makePagesForTagGroups m = Throw (TypeError "name"))
  \/ (~ In KUndefined (map fst m)
      /\ exists pages, makePagesForTagGroups m = Ok pages
                       /\ length pages = length m).
Proof.
  induction m as [|[k v] m IH]; simpl.
  - right; split; [intros []|exists []; auto].
  - destruct k; simpl.
    + destruct IH as [[Hin ->]|[Hn [pages [-> Hl]]]]; simpl.
      * left; auto.
      * right; split; [intros [H|H]; [discriminate|auto]|].
        eexists; split; [reflexivity|simpl; auto].
    + destruct IH as [[Hin ->]|[Hn [pages [-> Hl]]]]; simpl.
      * left; auto.
      * right; split; [intros [H|H]; [discriminate|auto]|].
        eexists; split; [reflexivity|simpl; auto].
    + left; auto.
Qed.

Lemma find_tag_from_present : forall l i n,
  existsb (String.eqb n) (map name l) = true -> find_tag_from i l n <> KUndefined.
Proof.
  induction l as [|t l IH]; simpl; intros i n H; [discriminate|].
  destruct (String.eqb (name t) n) eqn:E; [discriminate|].
  apply orb_prop in H as [H|H]; [|apply IH; auto].
  apply String.eqb_eq in H; subst; rewrite String.eqb_refl in E; discriminate.
Qed.

Lemma run_ready_collate_ready : forall api,
  run_readyb api = true -> collate_readyb api = true.
Proof.
  unfold run_readyb, collate_readyb; intros api H.
  rewrite forallb_forall in *; intros e He; specialize (H e He).
  destruct (tags (operationObject e)) as [[|t ts]|]; auto.
  simpl in H; destruct (doc_tags api); auto.
Qed.

Lemma collate_render_ok_iff : forall api,
  (exists m pages, collateTags api = Ok m /\ makePagesForTagGroups m = Ok pages)
  <-> run_readyb api = true.
Proof.
  intros api; split.
  - intros [m [pages [Hc Hp]]].
    assert (Hr : collate_readyb api = true) by (apply collate_ready_iff; eauto).
    unfold run_readyb; apply forallb_forall; intros e He.
    unfold collate_readyb in Hr; rewrite forallb_forall in Hr.
    specialize (Hr e He).
    destruct (tags (operationObject e)) as [ts|] eqn:Ht; [|discriminate].
    apply forallb_forall; intros n Hn.
    destruct ts as [|t ts]; [contradiction|].
    destruct (doc_tags api) as [l|] eqn:Hl; [|discriminate].
    destruct (existsb (String.eqb n) (map name l)) eqn:Hx; auto.
    exfalso.
    assert (Hk : In KUndefined (map fst m)).
    { apply has_key_undefined.
      eapply (collate_loop_touch api _ [] m e (t :: ts) n); eauto.
      unfold find_tag; rewrite Hl; f_equal.
      apply find_tag_from_absent, existsb_eqb_false, Hx. }
    rewrite makePages_undefined in Hp; [discriminate|exact Hk].
  - intros H.
    destruct (proj2 (collate_ready_iff api) (run_ready_collate_ready _ H))
      as [m Hc].
    destruct (makePages_cases m) as [[Hin _]|[_ [pages [Hp _]]]];
      [|exists m, pages; auto].
    exfalso; unfold collateTags in Hc.
    rewrite (collate_loop_keys _ _ _ _ Hc) in Hin.
    apply first_occ_from_incl in Hin as [[]|Hin].
    apply in_flat_map in Hin as [e [He Hk]].
    unfold run_readyb in H; rewrite forallb_forall in H; specialize (H e He).
    unfold touch_keys in Hk.
    destruct (tags (operationObject e)) as [[|t ts]|]; try discriminate.
    + destruct Hk as [Hk|[]]; discriminate.
    + apply in_map_iff in Hk as [n [Hk Hn]].
      rewrite forallb_forall in H; specialize (H n Hn).
      destruct (doc_tags api) as [l|]; [|discriminate].
      exact (find_tag_from_present l 0 n H Hk).
Qed.

Lemma run_ok_iff_aux : forall resolve clock raw,
  (exists z, handleFileUpload resolve clock raw = Ok z)
  <-> exists api, resolve raw = Ok api /\ run_readyb api = true.
Proof.
  intros resolve clock raw; unfold handleFileUpload; split.
  - intros [z H].
    destruct (resolve raw) as [api|]; simpl in H; [|discriminate].
    exists api; split; auto; apply collate_render_ok_iff.
    destruct (collateTags api) as [m|] eqn:Hc; simpl in H; [|discriminate].
    destruct (makePagesForTagGroups m) as [pages|] eqn:Hp; simpl in H;
      [|discriminate].
    exists m, pages; auto.
  - intros [api [Hr H]]; rewrite Hr; simpl.
    apply collate_render_ok_iff in H as [m [pages [Hc Hp]]].
    rewrite Hc; simpl; rewrite Hp; simpl; eauto.
Qed.

(** Extra: a file with an accepted name whose document cannot be run (an
    entry without [tags], or a tag name [tags] does not declare) makes the
    handler's promise reject and leaves the state as it was: no error
    message is shown and an earlier download link stays. *)
Theorem handleFileUploadEvent_silent_failure : forall resolve clock f st api,
  validateFileIsJsonOrYaml (file_name f) = true ->
  resolve (file_text f) = Ok api ->
  run_readyb api = false ->
  exists e, handleFileUploadEvent resolve clock (Some f) st = (st, Throw e).
Proof.
  intros resolve clock f st api Hv Hr Hn; unfold handleFileUploadEvent.
  rewrite Hv; simpl.
  destruct (handleFileUpload resolve clock (file_text f)) as [z|e] eqn:E; eauto.
  exfalso.
  assert (Hx : exists api', resolve (file_text f) = Ok api'
                            /\ run_readyb api' = true)
    by (apply (run_ok_iff_aux resolve clock); eauto).
  destruct Hx as [api' [Hr' Hy]]; rewrite Hr in Hr'; inversion Hr'; subst.
  congruence.
Qed.

Lemma handleFileUploadEvent_silent_failure_witness :
  exists e, handleFileUploadEvent (fun _ => Ok strayDoc) clock0
              (Some {| file_name := "pets.yaml"; file_text := "x" |})
              {| error := None; zipUrl := None |}
            = ({| error := None; zipUrl := None |}, Throw e).
Proof.
  apply (handleFileUploadEvent_silent_failure (fun _ => Ok strayDoc) clock0
           {| file_name := "pets.yaml"; file_text := "x" |}
           {| error := None; zipUrl := None |} strayDoc); reflexivity.
Defined.

(** ** The archive's entries *)

Lemma names_put_file : forall o fs,
  map zo_name (put_file o fs) =
  if existsb (String.eqb (zo_name o)) (map zo_name fs) then map zo_name fs
  else map zo_name fs ++ [zo_name o].
Proof.
  intros o fs; induction fs as [|o' fs IH]; simpl; auto.
  rewrite (String.eqb_sym (zo_name o) (zo_name o')).
  destruct (String.eqb (zo_name o') (zo_name o)) eqn:E; simpl.
  - apply String.eqb_eq in E; rewrite E; reflexivity.
  - rewrite IH; destruct (existsb (String.eqb (zo_name o)) (map zo_name fs));
      reflexivity.
Qed.

Lemma names_zip_file : forall c n d z,
  map zo_name (zfiles (zip_file c n d z)) = dedup_step (map zo_name (zfiles z)) n.
Proof. intros; unfold zip_file, dedup_step; simpl; apply names_put_file. Qed.

Lemma names_fold_pages : forall c pages z,
  map zo_name (zfiles (fold_left (fun z f => zip_file c (gb_path f) (contents f) z)
                         pages z))
  = fold_left dedup_step (map gb_path pages) (map zo_name (zfiles z)).
Proof.
  intros c; induction pages as [|f pages IH]; simpl; intros z; auto.
  rewrite IH, names_zip_file; reflexivity.
Qed.

Lemma dedup_fold_NoDup : forall ns acc,
  NoDup acc -> NoDup (fold_left dedup_step ns acc).
Proof.
  induction ns as [|n ns IH]; simpl; intros acc H; auto.
  apply IH; unfold dedup_step.
  destruct (existsb (String.eqb n) acc) eqn:E; auto.
  apply NoDup_app; auto; [repeat constructor; intros []|].
  intros a Ha [<-|[]]; exact (existsb_eqb_false _ _ E Ha).
Qed.

(** Extra: the archive's file entries (leaving out the directory entries
    JSZip derives from the names, such as [.gitbook/]) are named
    [SUMMARY.md], [README.md], the page paths and [.gitbook/openapi.yaml],
    each once, in the order it was first written: a page whose path
    repeats an earlier name (another page's, [SUMMARY.md] or [README.md])
    adds no file entry. *)
Theorem createZipBundle_names : forall clock pages spec doc,
  map zo_name (zfiles (createZipBundle clock pages spec doc))
  = dedup_names (["SUMMARY.md"; "README.md"] ++ map gb_path pages
                 ++ [".gitbook/openapi.yaml"])
  /\ NoDup (map zo_name (zfiles (createZipBundle clock pages spec doc))).
Proof.
  intros clock pages spec doc.
  assert (H : map zo_name (zfiles (createZipBundle clock pages spec doc))
              = dedup_names (["SUMMARY.md"; "README.md"] ++ map gb_path pages
                             ++ [".gitbook/openapi.yaml"])).
  { unfold createZipBundle, zip_folder_file, dedup_names.
    rewrite names_zip_file, names_fold_pages, !names_zip_file.
    rewrite !fold_left_app; reflexivity. }
  split; auto; rewrite H; apply dedup_fold_NoDup; constructor.
Qed.

Lemma lookup_fold_pages : forall c pages z n,
  zip_lookup n (zfiles (fold_left (fun z f => zip_file c (gb_path f) (contents f) z)
                          pages z))
  = page_contents_at n pages (zip_lookup n (zfiles z)).
Proof.
  intros c; induction pages as [|f pages IH]; simpl; intros z n; auto.
  rewrite IH; unfold zip_file; simpl; rewrite zip_lookup_put; reflexivity.
Qed.

Lemma zip_bundle_lookup : forall clock pages spec doc n,
  zip_lookup n (zfiles (createZipBundle clock pages spec doc))
  = if String.eqb ".gitbook/openapi.yaml" n then Some spec
    else page_contents_at n pages
           (if String.eqb "README.md" n then Some (createReadmeFile doc)
            else if String.eqb "SUMMARY.md" n then Some (createSummaryFile pages)
            else None).
Proof.
  intros; unfold createZipBundle, zip_folder_file, zip_file at 1.
  cbn [zfiles]; rewrite zip_lookup_put, lookup_fold_pages.
  unfold zip_file; cbn [zfiles emptyZip]; rewrite !zip_lookup_put; reflexivity.
Qed.

(** ** The readme entry *)

Lemma string_app_cancel_r : forall a b c : string,
  (a ++ c)%string = (b ++ c)%string -> a = b.
Proof.
  induction a as [|x a IH]; destruct b as [|y b]; intros c H; auto.
  - apply (f_equal String.length) in H; simpl in H.
    rewrite str_length_app in H; lia.
  - apply (f_equal String.length) in H; simpl in H.
    rewrite str_length_app in H; lia.
  - simpl in H; injection H as -> H; f_equal; eapply IH; eauto.
Qed.

Lemma find_tag_from_in : forall l i n j t,
  find_tag_from i l n = KTag j t -> In t l.
Proof.
  induction l as [|t0 l IH]; simpl; intros i n j t H; [discriminate|].
  destruct (String.eqb (name t0) n).
  - injection H as _ ->; auto.
  - right; eapply IH; eauto.
Qed.

(** A key of the map names a tag of the document's array, or is the
    untagged or the undefined key. *)
Definition key_from (l : list TagObject) (k : TKey) : Prop :=
  match k with
  | KTag _ t => In t l
  | _ => True
  end.

Lemma collateTags_keys_from : forall api m k,
  collateTags api = Ok m -> In k (map fst m) ->
  key_from (match doc_tags api with Some l => l | None => [] end) k.
Proof.
  intros api m k H Hk; unfold collateTags in H.
  rewrite (collate_loop_keys _ _ _ _ H) in Hk.
  apply first_occ_from_incl in Hk as [[]|Hk].
  apply in_flat_map in Hk as [e [_ He]]; unfold touch_keys in He.
  destruct (tags (operationObject e)) as [[|t ts]|]; simpl in He.
  - destruct He as [<-|[]]; exact I.
  - destruct He as [<-|He].
    + destruct (find_tag_from 0 _ t) eqn:E; simpl; auto.
      eapply find_tag_from_in; eauto.
    + apply in_map_iff in He as [n [<- _]].
      destruct (find_tag_from 0 _ n) eqn:E; simpl; auto.
      eapply find_tag_from_in; eauto.
  - destruct He.
Qed.

Lemma page_contents_absent : forall n pages init,
  Forall (fun f => gb_path f <> n) pages -> page_contents_at n pages init = init.
Proof.
  unfold page_contents_at; intros n pages; induction pages as [|f pages IH];
    simpl; intros init H; auto.
  inversion H as [|? ? Hf Hrest]; subst.
  destruct (String.eqb_spec (gb_path f) n); [contradiction|]; auto.
Qed.

Lemma makePages_paths_from : forall (P : TKey -> Prop) (Q : GitBookFile -> Prop) m pages,
  makePagesForTagGroups m = Ok pages ->
  (forall k, In k (map fst m) -> P k) ->
  (forall k t v, P k -> key_tag k = Ok t -> Q (createTagPage t v)) ->
  Forall Q pages.
Proof.
  intros P Q m pages H Hm HQ; apply makePages_paths in H.
  induction H as [|kv f m pages [t [Ht ->]] _ IH]; constructor.
  - eapply HQ; [apply Hm; left; reflexivity | exact Ht].
  - apply IH; intros k Hk; apply Hm; right; exact Hk.
Qed.

(** ** The page heading *)

Lemma str_app_assoc : forall a b c : string,
  (a ++ (b ++ c))%string = ((a ++ b) ++ c)%string.
Proof. induction a as [|x a IH]; simpl; intros; [reflexivity|f_equal; auto]. Qed.

Lemma list_ascii_app : forall a b : string,
  list_ascii_of_string (a ++ b) = list_ascii_of_string a ++ list_ascii_of_string b.
Proof. induction a as [|x a IH]; simpl; intros; [reflexivity|f_equal; auto]. Qed.

Lemma string_of_list_app : forall l1 l2 : list ascii,
  string_of_list_ascii (l1 ++ l2)
  = (string_of_list_ascii l1 ++ string_of_list_ascii l2)%string.
Proof. induction l1 as [|x l1 IH]; simpl; intros; [reflexivity|f_equal; auto]. Qed.

Lemma drop_space_app : forall x y,
  drop_space (x ++ y) = match drop_space x with [] => drop_space y | d => d ++ y end.
Proof.
  induction x as [|a x IH]; simpl; intros y; [reflexivity|].
  destruct (is_js_space a); [apply IH|reflexivity].
Qed.

Lemma drop_space_nonspace : forall x c y,
  is_js_space c = false -> drop_space (x ++ c :: y) = drop_space x ++ c :: y.
Proof.
  intros x c y Hc; rewrite drop_space_app.
  destruct (drop_space x); simpl; [rewrite Hc|]; reflexivity.
Qed.

Lemma drop_space_all : forall x,
  forallb is_js_space x = true -> drop_space x = [].
Proof.
  induction x as [|a x IH]; simpl; intros H; [reflexivity|].
  apply andb_prop in H as [-> H]; auto.
Qed.

(** [trim] keeps everything from the first to the last non-space
    character. *)
Lemma trim_between : forall (p s : string) c d,
  is_js_space c = false -> is_js_space d = false ->
  trim (String c p ++ String d s)
  = (String c p ++ String d
       (string_of_list_ascii (rev (drop_space (rev (list_ascii_of_string s))))))%string.
Proof.
  intros p s c d Hc Hd; unfold trim.
  rewrite list_ascii_app; cbn [list_ascii_of_string app drop_space]; rewrite Hc.
  rewrite app_comm_cons, rev_app_distr; cbn [rev].
  rewrite <- app_assoc, <- app_comm_cons, app_nil_l.
  rewrite drop_space_nonspace by exact Hd.
  rewrite rev_app_distr, app_comm_cons, rev_app_distr; cbn [rev app].
  rewrite rev_involutive.
  rewrite <- app_assoc; cbn [app string_of_list_ascii append].
  rewrite string_of_list_app, string_of_list_ascii_of_string; reflexivity.
Qed.

Lemma drop_space_split : forall x,
  exists w, x = w ++ drop_space x /\ forallb is_js_space w = true
    /\ (drop_space x = [] \/ exists c x', drop_space x = c :: x' /\ is_js_space c = false).
Proof.
  induction x as [|a x [w [Hw [Hs Hl]]]].
  - exists []; auto.
  - cbn [drop_space]; destruct (is_js_space a) eqn:Ha.
    + exists (a :: w); cbn [forallb app]; rewrite Ha, Hs, <- Hw; auto.
    + exists []; split; [reflexivity|split; [reflexivity|right; eauto]].
Qed.

(** The part of [s] the end of [trim] keeps: [s] is it followed by white
    space, and it is empty or ends with a character that is not white
    space. *)
Lemma trim_end_split : forall s,
  exists w,
    s = (string_of_list_ascii (rev (drop_space (rev (list_ascii_of_string s)))) ++ w)%string
    /\ forallb is_js_space (list_ascii_of_string w) = true
    /\ (string_of_list_ascii (rev (drop_space (rev (list_ascii_of_string s)))) = ""%string
        \/ exists r x, string_of_list_ascii (rev (drop_space (rev (list_ascii_of_string s))))
                       = (r ++ String x "")%string /\ is_js_space x = false).
Proof.
  intros s; destruct (drop_space_split (rev (list_ascii_of_string s)))
    as [w [Hw [Hs Hl]]].
  exists (string_of_list_ascii (rev w)); split; [|split].
  - rewrite <- string_of_list_app, <- rev_app_distr, <- Hw, rev_involutive.
    symmetry; apply string_of_list_ascii_of_string.
  - rewrite list_ascii_of_string_of_list_ascii.
    rewrite forallb_forall in *; intros x Hx; apply Hs, in_rev, Hx.
  - destruct Hl as [-> | [c [x' [-> Hc]]]]; [left; reflexivity|right].
    exists (string_of_list_ascii (rev x')), c; split; [|exact Hc].
    cbn [rev]; rewrite string_of_list_app; reflexivity.
Qed.

Lemma trim_lead_space : forall a s,
  is_js_space a = true -> trim (String a s) = trim s.
Proof. intros a s H; unfold trim; cbn [list_ascii_of_string drop_space]; rewrite H; reflexivity. Qed.

Lemma external_docs_text_last : forall t,
  exists e c, external_docs_text t = (e ++ String c "")%string
              /\ is_js_space c = false.
Proof.
  intros t; unfold external_docs_text; destruct (externalDocs t) as [d|].
  - exists ("[" ++ js_str (ed_description d) ++ "](" ++ url d)%string, ")"%char.
    split; [|reflexivity].
    rewrite <- !str_app_assoc; reflexivity.
  - exists "undefine"%string, "d"%char; split; reflexivity.
Qed.

(** ** C2: tag names absent from the document *)



(** ** Entry points of the properties above *)

(** Extra: [makePagesForTagGroups] renders one page per group, in group
    order, unless some group has the key [undefined]; then it throws a
    [TypeError] reading [name] and renders nothing. *)
Theorem makePages_result : forall m,
  (In KUndefined (map fst m)
   /\ makePagesForTagGroups m = Throw (TypeError "name"))
  \/ (~ In KUndefined (map fst m)
      /\ exists pages, makePagesForTagGroups m = Ok pages
                       /\ length pages = length m).
Proof. exact makePages_cases. Qed.

(** Extra: what the archive holds under a name [n]: the spec text for
    [.gitbook/openapi.yaml]; otherwise the contents of the last page named
    [n], and failing that the readme for [README.md], the summary for
    [SUMMARY.md] and nothing for other names (last write wins). *)
Theorem createZipBundle_lookup : forall clock pages spec doc n,
  zip_lookup n (zfiles (createZipBundle clock pages spec doc))
  = if String.eqb ".gitbook/openapi.yaml" n then Some spec
    else page_contents_at n pages
           (if String.eqb "README.md" n then Some (createReadmeFile doc)
            else if String.eqb "SUMMARY.md" n then Some (createSummaryFile pages)
            else None).
Proof. exact zip_bundle_lookup. Qed.

(** Extra: when the run produces an archive and no tag of the document's
    [tags] array is named [README], the archive's [README.md] holds
    ["# "] followed by the document's [info.title]; a tag page can only
    replace it through such a tag. *)
Theorem handleFileUpload_readme : forall resolve clock raw api z,
  resolve raw = Ok api ->
  handleFileUpload resolve clock raw = Ok z ->
  ~ In "README" (map name (match doc_tags api with Some l => l | None => [] end)) ->
  zip_lookup "README.md" (zfiles z) = Some ("# " ++ info_title api)%string.
Proof.
  intros resolve clock raw api z Hr H Hn; unfold handleFileUpload in H.
  rewrite Hr in H; simpl in H.
  destruct (collateTags api) as [m|] eqn:Ec; simpl in H; [|discriminate].
  destruct (makePagesForTagGroups m) as [pages|] eqn:Ep; simpl in H;
    [|discriminate].
  injection H as <-; rewrite zip_bundle_lookup.
  replace (String.eqb ".gitbook/openapi.yaml" "README.md") with false
    by reflexivity.
  replace (String.eqb "README.md" "README.md") with true by reflexivity.
  rewrite page_contents_absent; [reflexivity|].
  apply (makePages_paths_from
           (key_from (match doc_tags api with Some l => l | None => [] end))
           _ m pages Ep).
  - intros k Hk; exact (collateTags_keys_from _ _ _ Ec Hk).
  - intros k t v Hk Ht; simpl; intros Hp.
    change "README.md"%string with ("README" ++ ".md")%string in Hp.
    apply string_app_cancel_r in Hp.
    destruct k as [|i t'|]; simpl in Ht; injection Ht as <- || discriminate.
    + discriminate Hp.
    + apply Hn; rewrite <- Hp; apply in_map; exact Hk.
Qed.

Lemma handleFileUpload_readme_witness :
  zip_lookup "README.md"
    (zfiles (match handleFileUpload (fun _ => Ok petStore) clock0 petStoreText with
             | Ok z => z | Throw _ => emptyZip end))
  = Some ("# " ++ info_title petStore)%string.
Proof.
  apply (handleFileUpload_readme (fun _ => Ok petStore) clock0 petStoreText
           petStore); [reflexivity| |vm_compute; intros [H|[]]; discriminate H].
  vm_compute; reflexivity.
Defined.

(** Extra: [trim] only strips the line break before the heading and the
    white space after the last endpoint block: every tag page is ["# "]
    and the tag name, a blank line, the description, a blank line and the
    external docs text, in full, followed by the endpoint blocks (with
    their separators) without their trailing white space; with no
    endpoints the page ends after the external docs text. *)
Theorem createTagPage_heading : forall t es,
  exists rest ws,
    contents (createTagPage t es)
    = ("# " ++ name t ++ nl ++ nl ++ js_str (description t) ++ nl ++ nl
       ++ external_docs_text t ++ rest)%string
    /\ (rest ++ ws)%string
       = (nl ++ nl ++ join (nl ++ nl) (map createGitBookOpenAPITag es)
          ++ nl ++ "  ")%string
    /\ forallb is_js_space (list_ascii_of_string ws) = true
    /\ (rest = ""%string
        \/ exists r x, rest = (r ++ String x "")%string /\ is_js_space x = false)
    /\ (es = [] -> rest = ""%string).
Proof.
  intros t es; destruct (external_docs_text_last t) as [e [c [He Hc]]].
  set (p := (" " ++ name t ++ nl ++ nl ++ js_str (description t) ++ nl ++ nl
             ++ e)%string).
  set (s := (nl ++ nl ++ join (nl ++ nl) (map createGitBookOpenAPITag es)
             ++ nl ++ "  ")%string).
  destruct (trim_end_split s) as [w [Hw [Hs Hl]]].
  exists (string_of_list_ascii (rev (drop_space (rev (list_ascii_of_string s))))), w.
  split; [|split; [symmetry; exact Hw|split; [exact Hs|split; [exact Hl|]]]].
  - unfold createTagPage; cbn [contents].
    change (trim (nl ++ ?x)) with (trim (String (ascii_of_nat 10) x)).
    rewrite trim_lead_space by reflexivity.
    transitivity (trim (String "#" p ++ String c s)).
    + f_equal; subst p s; rewrite He.
      change (String "#" ?p ++ ?x)%string with (String "#" (p ++ x)).
      rewrite <- !str_app_assoc; reflexivity.
    + rewrite trim_between by (reflexivity || exact Hc); subst p; rewrite He.
      change (String "#" ?p ++ ?x)%string with (String "#" (p ++ x)).
      rewrite <- !str_app_assoc; reflexivity.
  - intros ->; subst s; rewrite drop_space_all; reflexivity.
Qed.
